(** * Query resolution of [myougiden_api.run]

    A shallow embedding of [src/myougiden_api.py]: the option namespace
    built by argparse, the derivation of the case-sensitivity flag, the
    combinatorial generation of search conditions, the splice of kana
    conditions in front of the reading conditions, and the hand-over to
    the match cascade [search.guess].

    Python strings are modelled by [string], read as their UTF-8 bytes: a
    byte in the range 65..90 is then exactly an occurrence of one of the
    characters [A-Z].  The modules [myougiden.texttools] and [romkan] are
    not part of the file under study; they are interfaces here. *)

From Stdlib Require Import String Ascii ZArith Lia.
From stdpp Require Import base decidable list strings sorting.

Open Scope string_scope.
Open Scope list_scope.

(** ** Data model *)

(** The values of [args.field] and of the ['field'] key of a search. *)
Inductive Field := kanji | reading | gloss | field_auto.

(** The values of [args.extent] and of the ['extent'] key of a search. *)
Inductive Extent := whole | beginning | word | partial | extent_auto.

#[global] Instance Field_eq_dec : EqDecision Field.
Proof. solve_decision. Defined.

#[global] Instance Extent_eq_dec : EqDecision Extent.
Proof. solve_decision. Defined.

(** Opaque entry identifiers returned by the matcher ([ent_seq]). *)
Definition EntSeq := Z.

(** The dictionary [search_args] after lines 218-222: exactly the six keys
    understood by [search_by]. *)
Record Condition := mkCondition {
  field : Field;
  query : string;
  extent : Extent;
  regexp : bool;
  case_sensitive : bool;
  frequent : bool
}.

#[global] Instance Condition_eq_dec : EqDecision Condition.
Proof. solve_decision. Defined.

(** The argparse namespace, restricted to the options [run] reads.
    [output_mode] and [color] are overwritten with ['tab'] and ['no'] on
    lines 120 and 122 and [query] with the parameter of [run], so they are
    not inputs. *)
Record Namespace := mkNamespace {
  args_version : bool;
  args_field : Field;
  args_case_sensitive : bool;
  args_regexp : bool;
  args_extent : Extent;
  args_frequent : bool;
  args_list_abbrevs : bool;
  args_abbrev : option string
}.

(** ** External modules *)

(** [myougiden.texttools], imported as [tt]. *)
Class TextTools := {
  is_latin : string → bool;
  is_romaji : string → bool;
  is_kana : string → bool;
  has_regexp_special : string → bool;
  expand_romaji : string → list string
}.

(** [romkan]. *)
Class Romkan := {
  to_hiragana : string → string;
  to_katakana : string → string
}.

(** ** Exceptions and results *)

Inductive exn :=
| SystemExit (code : Z)
| ValueError
| MatcherUnavailable
| InvalidPattern
| PagerError.

#[global] Instance exn_eq_dec : EqDecision exn.
Proof. solve_decision. Defined.

Definition result (A : Type) : Type := exn + A.

Definition ok {A} (a : A) : result A := inr a.
Definition raise {A} (e : exn) : result A := inl e.

Definition rbind {A B} (m : result A) (k : A → result B) : result B :=
  match m with
  | inl e => inl e
  | inr a => k a
  end.

Notation "'let*' x ':=' m 'in' k" := (rbind m (fun x => k))
  (at level 10, x pattern, m at level 100, k at level 200).

(** A loop [for x in l: s = body(s, x)] whose body may raise. *)
Fixpoint for_each {A S} (body : S → A → result S) (s : S) (l : list A) : result S :=
  match l with
  | [] => ok s
  | x :: l' => let* s' := body s x in for_each body s' l'
  end.

(** ** Case sensitivity (lines 147-152) *)

Definition is_AZ (c : ascii) : bool :=
  (65 <=? nat_of_ascii c)%nat && (nat_of_ascii c <=? 90)%nat.

(** [re.search("[A-Z]", s)] as a truth value. *)
Fixpoint re_search_AZ (s : string) : bool :=
  match s with
  | EmptyString => false
  | String c s' => is_AZ c || re_search_AZ s'
  end.

(** [' '.join(args.query)]. *)
Definition join_query (words : list string) : string := String.concat " " words.

(** The value of [args.case_sensitive] after line 152. *)
Definition derive_case_sensitive (args : Namespace) (q : string) : bool :=
  if negb (args_case_sensitive args) then
    if re_search_AZ q then true else args_case_sensitive args
  else args_case_sensitive args.

(** ** Condition generation (lines 211-282) *)

(** Lines 212-213: the value of [args.extent] from there on. *)
Definition normalize_extent (args : Namespace) : Extent :=
  if decide (args_extent args = word ∧ args_field args ∈ [kanji; reading])
  then whole else args_extent args.

Section Generation.
Context `{TextTools}.

(** Lines 229-241. *)
Definition fields_of (f : Field) (q : string) : list Field :=
  if decide (f = field_auto) then
    if is_latin q then [gloss; reading; kanji]
    else if is_romaji q then [reading; gloss; kanji]
    else if is_kana q then [reading; kanji; gloss]
    else [kanji; reading; gloss]
  else [f].

(** Lines 243-246. *)
Definition extents_of (e : Extent) : list Extent :=
  if decide (e ≠ extent_auto) then [e] else [whole; word; partial].

(** Lines 248-253. *)
Definition regexp_flags_of (rx : bool) (q : string) : list bool :=
  if rx then [true]
  else if has_regexp_special q then [false; true]
  else [false].

(** Lines 218-222: the namespace turned into the base search. *)
Definition search_args_of (args : Namespace) (q : string) : Condition :=
  {| field := args_field args;
     query := q;
     extent := normalize_extent args;
     regexp := args_regexp args;
     case_sensitive := derive_case_sensitive args q;
     frequent := args_frequent args |}.

(** [sa = search_args.copy()] followed by the three assignments. *)
Definition with_keys (sa : Condition) (f : Field) (e : Extent) (rx : bool) : Condition :=
  {| field := f; query := query sa; extent := e; regexp := rx;
     case_sensitive := case_sensitive sa; frequent := frequent sa |}.

(** Lines 255-282: the three nested loops; [continue] contributes no
    condition, every other path appends one. *)
Definition nested_conditions (search_args : Condition) (ext : Extent)
    (fields : list Field) (extents : list Extent) (regexp_flags : list bool)
    : list Condition :=
  rx ← regexp_flags;
  e ← extents;
  f ← fields;
  if decide (e = word ∧ f ≠ gloss) then
    if decide (ext = extent_auto) then []
    else [with_keys search_args f whole rx]
  else [with_keys search_args f e rx].

(** The list [conditions] on reaching line 284. *)
Definition generate (args : Namespace) (q : string) : list Condition :=
  let ext := normalize_extent args in
  nested_conditions (search_args_of args q) ext
    (fields_of (args_field args) q)
    (extents_of ext)
    (regexp_flags_of (args_regexp args) q).

End Generation.

(** ** Kana conditions for rōmaji queries (lines 284-305) *)

(** [newcond = oldcond.copy(); newcond['query'] = k]. *)
Definition set_query (c : Condition) (k : string) : Condition :=
  {| field := field c; query := k; extent := extent c; regexp := regexp c;
     case_sensitive := case_sensitive c; frequent := frequent c |}.

(** [l.index(x)]: the position of the first element equal to [x] (the
    comparison of dictionaries is by value), [ValueError] when there is
    none. *)
Definition list_index (x : Condition) (l : list Condition) : result nat :=
  match list_find (λ y, y = x) l with
  | Some (i, _) => ok i
  | None => raise ValueError
  end.

(** [l.insert(i, x)] for [0 <= i]; past the end it appends. *)
Definition list_insert_at {A} (i : nat) (x : A) (l : list A) : list A :=
  take i l ++ x :: drop i l.

Section Expansion.
Context `{TextTools} `{Romkan}.

(** Lines 287-290. *)
Definition kana_guess (q : string) : list (string → string) :=
  if re_search_AZ q then [to_katakana; to_hiragana]
  else [to_hiragana; to_katakana].

(** Lines 292-305: [new_conditions] starts as a copy of [conditions] and
    receives every kana condition at the position of the first element
    equal to the reading condition it was copied from. *)
Definition splice_kana (q : string) (conditions : list Condition)
    : result (list Condition) :=
  for_each (λ new_conditions oldcond,
    if decide (field oldcond = reading) then
      for_each (λ new_conditions kanafn,
        for_each (λ new_conditions romaji,
          let newcond := set_query oldcond (kanafn romaji) in
          let* i := list_index oldcond new_conditions in
          ok (list_insert_at i newcond new_conditions))
        new_conditions (expand_romaji (query oldcond)))
      new_conditions (kana_guess q)
    else ok new_conditions)
  conditions conditions.

(** The list [conditions] on reaching line 308. *)
Definition final_conditions (args : Namespace) (q : string)
    : result (list Condition) :=
  let conditions := generate args q in
  if bool_decide (args_field args ∈ [field_auto; reading]) && is_romaji q
  then splice_kana q conditions
  else ok conditions.

End Expansion.

(** ** The match cascade *)

(** [search_by(cur, **condition)] for a fixed cursor: the identifiers of
    the matching entries, or an exception of the matcher. *)
Definition Matcher := Condition → result (list EntSeq).

(** Computations that call the matcher: the conditions handed to it so
    far are threaded as a log, next to the exception or the value. *)
Definition Cascade (A : Type) : Type := list Condition → list Condition * result A.

Definition cret {A} (a : A) : Cascade A := λ log, (log, ok a).
Definition craise {A} (e : exn) : Cascade A := λ log, (log, raise e).
Definition lift {A} (r : result A) : Cascade A := λ log, (log, r).

Definition cbind {A B} (m : Cascade A) (k : A → Cascade B) : Cascade B :=
  λ log,
    match m log with
    | (log', inl e) => (log', inl e)
    | (log', inr a) => k a log'
    end.

Notation "'let!' x ':=' m 'in' k" := (cbind m (fun x => k))
  (at level 10, x pattern, m at level 100, k at level 200).

(** One call of the matcher. *)
Definition invoke (search_by : Matcher) (c : Condition) : Cascade (list EntSeq) :=
  λ log, (log ++ [c], search_by c).

(** Modelled from the spec: [search.guess] of the package [myougiden] is
    missing from the sources.  Section 4.4: iterate the list strictly in
    order; invoke the matcher with each single condition; on a non-empty
    identifier set stop and return that condition with that set; when the
    list is exhausted return none and the empty sequence; a failure of the
    matcher aborts the cascade. *)
Fixpoint guess (search_by : Matcher) (conditions : list Condition)
    : Cascade (option Condition * list EntSeq) :=
  match conditions with
  | [] => cret (None, [])
  | condition :: rest =>
      let! res := invoke search_by condition in
      match res with
      | [] => guess search_by rest
      | _ :: _ => cret (Some condition, res)
      end
  end.

(** ** The function [run] *)

(** What [run] reads from its surroundings: whether [config] was found,
    [database.opendb] (the cursor is identified with the matcher it
    serves; [None] is [DatabaseAccessError]), the rendering of one entry
    ([orm.fetch_entry] then [format_tsv]), and the terminal. *)
Record Env := mkEnv {
  config_present : bool;
  opendb : bool → option Matcher;
  format_tsv : Condition → EntSeq → string;
  stdout_isatty : bool;
  color_pager : option string;
  terminal_size_1 : Z
}.

(** Truth value of an optional string ([None] and [''] are false). *)
Definition truthy (o : option string) : bool :=
  match o with
  | None => false
  | Some s => negb (bool_decide (s = ""))
  end.

Definition newline : string := String (ascii_of_nat 10) "".

Section Run.
Context `{TextTools} `{Romkan}.

(** Lines 310-340, with [args.output_mode = 'tab'].  [out] is a list of
    lines; in the pager branch [out.encode()] is applied to that list,
    so the branch ends in an exception. *)
Definition present (env : Env) (chosen_search : option Condition)
    (ent_seqs : list EntSeq) : Cascade (option (list string)) :=
  match chosen_search with
  | Some c =>
      let out := map (format_tsv env c) ent_seqs in
      if stdout_isatty env && truthy (color_pager env)
         && (terminal_size_1 env <? Z.of_nat (length (filter (λ s, s = newline) out)))%Z
      then craise PagerError
      else cret (Some out)
  | None => cret None
  end.

(** [run(query)], from line 147 on; printing is not modelled. *)
Definition run (env : Env) (args : Namespace) (words : list string)
    : Cascade (option (list string)) :=
  let q := join_query words in
  if negb (config_present env) then craise (SystemExit 2)
  else
    match opendb env (derive_case_sensitive args q) with
    | None => craise (SystemExit 2)
    | Some cur =>
        if args_version args then craise (SystemExit 0)
        else if args_list_abbrevs args then craise (SystemExit 0)
        else if truthy (args_abbrev args) then craise (SystemExit 0)
        else if bool_decide (q = "") then craise (SystemExit 2)
        else
          let! conditions := lift (final_conditions args q) in
          let! (chosen_search, ent_seqs) := guess cur conditions in
          present env chosen_search ent_seqs
    end.

End Run.

(** ** Notions used in the statements *)

(** The three keys the generation loops vary. *)
Definition key (c : Condition) : Field * Extent * bool :=
  (field c, extent c, regexp c).

(** Lines 303-304 for one new condition. *)
Definition insert_before (oldcond : Condition) (new_conditions : list Condition)
    (newcond : Condition) : result (list Condition) :=
  let* i := list_index oldcond new_conditions in
  ok (list_insert_at i newcond new_conditions).

Section Slots.
Context `{TextTools} `{Romkan}.

(** The kana strings tried for a reading condition, in the words of the
    specification: every variant in one script, then every variant in the
    other; hiragana first unless the query has an uppercase letter. *)
Definition kana_renderings (q q0 : string) : list string :=
  if re_search_AZ q
  then (to_katakana <$> expand_romaji q0) ++ (to_hiragana <$> expand_romaji q0)
  else (to_hiragana <$> expand_romaji q0) ++ (to_katakana <$> expand_romaji q0).

Definition kana_conditions (q : string) (c : Condition) : list Condition :=
  set_query c <$> kana_renderings q (query c).

(** What the splice leaves in the place of one condition. *)
Definition slot (q : string) (c : Condition) : list Condition :=
  if decide (field c = reading) then
    filter (λ x, x ≠ c) (kana_conditions q c)
    ++ replicate (S (length (filter (λ x, x = c) (kana_conditions q c)))) c
  else [c].

End Slots.

(** Where a key shows in the loops: the pass of the extent loop under
    [auto]. *)
Definition auto_pass (e : Extent) : option nat :=
  match e with
  | whole => Some 0
  | word => Some 1
  | partial => Some 2
  | beginning | extent_auto => None
  end.

Definition pass_le (e1 e2 : Extent) : Prop :=
  match auto_pass e1, auto_pass e2 with
  | Some i, Some j => (i ≤ j)%nat
  | _, _ => False
  end.

#[global] Instance pass_le_dec : RelDecision pass_le.
Proof. intros e1 e2. unfold pass_le. destruct (auto_pass e1), (auto_pass e2); apply _. Defined.


(** A condition the matcher answers with no entry. *)
Definition no_entry (search_by : Matcher) (c : Condition) : Prop :=
  search_by c = inr [].

(** ** A sample instance of the external modules

    Small executable stand-ins for [myougiden.texttools] and [romkan], used
    to run the definitions above on concrete queries. *)
Module Sample.

Definition byte (c : ascii) : N := N_of_ascii c.

Fixpoint all_bytes (p : N → bool) (s : string) : bool :=
  match s with
  | EmptyString => true
  | String c s' => p (byte c) && all_bytes p s'
  end.

Fixpoint some_byte (p : N → bool) (s : string) : bool :=
  match s with
  | EmptyString => false
  | String c s' => p (byte c) || some_byte p s'
  end.

(** Modelled from the spec: [tt.is_latin] is missing; section 4.1, rule 1:
    solely Latin letters and punctuation with no diacritics, read here
    as: every byte is ASCII. *)
Definition is_latin (s : string) : bool := all_bytes (λ b, b <? 128)%N s.

(** The second byte of the macron vowels ā ē ī (after 0xC4) and ō ū
    (after 0xC5) in UTF-8. *)
Definition macron_tail (lead b : N) : bool :=
  ((lead =? 0xC4) && ((b =? 0x81) || (b =? 0x93) || (b =? 0xAB)))%N
  || ((lead =? 0xC5) && ((b =? 0x8D) || (b =? 0xAB)))%N.

(** The second byte of the capital macron vowels Ā Ē Ī (after 0xC4) and
    Ō Ū (after 0xC5) in UTF-8. *)
Definition macron_capital (lead b : N) : bool :=
  ((lead =? 0xC4) && ((b =? 0x80) || (b =? 0x92) || (b =? 0xAA)))%N
  || ((lead =? 0xC5) && ((b =? 0x8C) || (b =? 0xAA)))%N.

(** Modelled from the spec: [tt.is_romaji] is missing; section 4.1, rule 2
    and section 4.2: Latin script, possibly with the characters of
    romanized Japanese, read here as: ASCII and macron vowels, small or
    capital. *)
Fixpoint is_romaji (s : string) : bool :=
  match s with
  | EmptyString => true
  | String c s' =>
      if (byte c <? 128)%N then is_romaji s'
      else
        match s' with
        | String d s'' =>
            (macron_tail (byte c) (byte d) || macron_capital (byte c) (byte d))
            && is_romaji s''
        | EmptyString => false
        end
  end.

(** Modelled from the spec: [tt.is_kana] is missing; section 4.1, rule 3:
    composed of kana, read here as: every character lies in
    U+3040..U+30FF (three bytes E3, 81..83, 80..BF). *)
Fixpoint is_kana (s : string) : bool :=
  match s with
  | EmptyString => true
  | String c (String d (String e s')) =>
      (byte c =? 0xE3)%N
      && ((0x81 <=? byte d) && (byte d <=? 0x83))%N
      && ((0x80 <=? byte e) && (byte e <=? 0xBF))%N
      && is_kana s'
  | _ => false
  end.

(** Modelled from the spec: [tt.has_regexp_special] is missing; section
    4.3, step 3: the query contains a character with regular-expression
    special meaning. *)
Definition has_regexp_special (s : string) : bool :=
  some_byte (λ b, bool_decide (b ∈ map byte (list_ascii_of_string ".^$*+?{}()[]\|"))) s.

(** Modelled from the spec: [tt.expand_romaji] is missing; section 4.2:
    the variants of an ambiguous transliteration, here the spellings of
    a long vowel written with a macron. *)
Fixpoint expand_romaji (s : string) : list string :=
  match s with
  | EmptyString => [EmptyString]
  | String c s' =>
      match s' with
      | String d s'' =>
          if macron_tail (byte c) (byte d) then
            let long :=
              if (byte c =? 0xC4)%N then
                if (byte d =? 0x81)%N then ["aa"]
                else if (byte d =? 0x93)%N then ["ee"] else ["ii"]
              else if (byte d =? 0x8D)%N then ["ou"; "oo"] else ["uu"] in
            v ← long; r ← expand_romaji s''; [(v ++ r)%string]
          else String c <$> expand_romaji s'
      | EmptyString => [s]
      end
  end.

Definition text_tools : TextTools :=
  Build_TextTools is_latin is_romaji is_kana has_regexp_special expand_romaji.

(** The hiragana of the basic syllables, by code point; the katakana
    of a syllable lies 0x60 above it. *)
Definition syllables : list (string * N) :=
  [ ("a", 0x3042); ("i", 0x3044); ("u", 0x3046); ("e", 0x3048); ("o", 0x304A);
    ("ka", 0x304B); ("ki", 0x304D); ("ku", 0x304F); ("ke", 0x3051); ("ko", 0x3053);
    ("ga", 0x304C); ("gi", 0x304E); ("gu", 0x3050); ("ge", 0x3052); ("go", 0x3054);
    ("sa", 0x3055); ("si", 0x3057); ("su", 0x3059); ("se", 0x305B); ("so", 0x305D);
    ("za", 0x3056); ("zi", 0x3058); ("zu", 0x305A); ("ze", 0x305C); ("zo", 0x305E);
    ("ta", 0x305F); ("ti", 0x3061); ("tu", 0x3064); ("te", 0x3066); ("to", 0x3068);
    ("da", 0x3060); ("di", 0x3062); ("du", 0x3065); ("de", 0x3067); ("do", 0x3069);
    ("na", 0x306A); ("ni", 0x306B); ("nu", 0x306C); ("ne", 0x306D); ("no", 0x306E);
    ("ha", 0x306F); ("hi", 0x3072); ("hu", 0x3075); ("he", 0x3078); ("ho", 0x307B);
    ("ba", 0x3070); ("bi", 0x3073); ("bu", 0x3076); ("be", 0x3079); ("bo", 0x307C);
    ("pa", 0x3071); ("pi", 0x3074); ("pu", 0x3077); ("pe", 0x307A); ("po", 0x307D);
    ("ma", 0x307E); ("mi", 0x307F); ("mu", 0x3080); ("me", 0x3081); ("mo", 0x3082);
    ("ya", 0x3084); ("yu", 0x3086); ("yo", 0x3088);
    ("ra", 0x3089); ("ri", 0x308A); ("ru", 0x308B); ("re", 0x308C); ("ro", 0x308D);
    ("wa", 0x308F); ("wo", 0x3092); ("n", 0x3093) ]%N.

Definition syllable (s : string) : option N :=
  (λ r, r.2.2) <$> list_find (λ p, p.1 = s) syllables.

(** UTF-8 of a code point in U+0800..U+FFFF. *)
Definition utf8 (cp : N) : string :=
  String (ascii_of_N (0xE0 + cp / 0x1000))
    (String (ascii_of_N (0x80 + (cp / 0x40) mod 0x40))
      (String (ascii_of_N (0x80 + cp mod 0x40)) EmptyString)).

Definition lower (c : ascii) : ascii :=
  if is_AZ c then ascii_of_N (byte c + 32) else c.

(** Longest match first; a character that starts no syllable is kept. *)
Fixpoint kana (off : N) (s : string) : string :=
  match s with
  | EmptyString => EmptyString
  | String c s' =>
      let one :=
        match syllable (String (lower c) EmptyString) with
        | Some cp => (utf8 (cp + off) ++ kana off s')%string
        | None => String c (kana off s')
        end in
      match s' with
      | String d s'' =>
          match syllable (String (lower c) (String (lower d) EmptyString)) with
          | Some cp => (utf8 (cp + off) ++ kana off s'')%string
          | None => one
          end
      | EmptyString => one
      end
  end.

(** Modelled from the spec: [romkan.to_hiragana] and [romkan.to_katakana]
    are missing; section 1: the transliteration library converts Latin
    transliteration to kana. *)
Definition romkan : Romkan :=
  {| to_hiragana := kana 0; to_katakana := kana 0x60 |}.

(** [run] with no option on the command line. *)
Definition auto_args : Namespace :=
  {| args_version := false; args_field := field_auto;
     args_case_sensitive := false; args_regexp := false;
     args_extent := extent_auto; args_frequent := false;
     args_list_abbrevs := false; args_abbrev := None |}.

(** The options [-k --word]. *)
Definition kanji_word_args : Namespace :=
  {| args_version := false; args_field := kanji;
     args_case_sensitive := false; args_regexp := false;
     args_extent := word; args_frequent := false;
     args_list_abbrevs := false; args_abbrev := None |}.

(** A search for ["neko"]. *)
Definition neko (f : Field) (e : Extent) : Condition :=
  {| field := f; query := "neko"; extent := e; regexp := false;
     case_sensitive := false; frequent := false |}.

(** A dictionary in which only a search on kanji finds something. *)
Definition kanji_only : Matcher :=
  λ c, if bool_decide (field c = kanji) then ok [1467640%Z] else ok [].

Definition empty_dictionary : Matcher := λ _, ok [].

Definition env (cur : Matcher) : Env :=
  {| config_present := true; opendb := λ _, Some cur;
     format_tsv := λ _ _, EmptyString; stdout_isatty := false;
     color_pager := None; terminal_size_1 := 24 |}.

End Sample.

(** ** Tactics *)

(** Case analysis on everything the keys of [generate args q] depend on. *)
Ltac generate_cases args q :=
  destruct args as [? fld ? rx ext ? ? ?];
  destruct fld, ext, rx;
  unfold generate, fields_of, regexp_flags_of;
  cbn [args_field args_extent args_regexp];
  destruct (is_latin q), (is_romaji q), (is_kana q), (has_regexp_special q).

Ltac by_evaluation := apply (bool_decide_unpack _); vm_compute; exact I.

(** * Properties *)

(** ** Loops that may raise *)

Section ForEach.
Context {A S : Type}.
Implicit Types (body : S → A → result S) (s : S) (l : list A).

Lemma for_each_app body s l1 l2 :
  for_each body s (l1 ++ l2)
  = let* s' := for_each body s l1 in for_each body s' l2.
Proof.
  revert s. induction l1 as [|x l1 IH]; intros s; simpl; [done|].
  destruct (body s x) as [e|s']; simpl; [done|apply IH].
Qed.

(** A loop whose body keeps an invariant and never raises under it
    returns, in a state satisfying the invariant. *)
Lemma for_each_invariant (I : S → Prop) (P : A → Prop) body s l :
  I s → Forall P l →
  (∀ s x, I s → P x → ∃ s', body s x = inr s' ∧ I s') →
  ∃ s', for_each body s l = inr s' ∧ I s'.
Proof.
  intros Hs Hl Hbody. revert s Hs.
  induction Hl as [|x l Hx _ IH]; intros s Hs; simpl; [by exists s|].
  destruct (Hbody s x Hs Hx) as (s' & -> & Hs'). simpl. by apply IH.
Qed.
End ForEach.

Lemma for_each_fmap {A B S} (f : A → B) (body : S → B → result S) s l :
  for_each (λ s x, body s (f x)) s l = for_each body s (f <$> l).
Proof.
  revert s. induction l as [|x l IH]; intros s; simpl; [done|].
  destruct (body s (f x)); simpl; [done|apply IH].
Qed.

(** ** [index] and [insert] *)

Lemma list_index_elem_of x l : x ∈ l → ∃ i, list_index x l = inr i.
Proof.
  intros Hx. unfold list_index.
  destruct (list_find (λ y, y = x) l) as [[i y]|] eqn:Hfind; [by exists i|].
  apply list_find_None in Hfind. rewrite Forall_forall in Hfind.
  by destruct (Hfind x Hx).
Qed.

Lemma list_index_first x front rest :
  x ∉ front → list_index x (front ++ x :: rest) = inr (length front).
Proof.
  intros Hfront. unfold list_index.
  induction front as [|y front IH]; simpl.
  - by rewrite decide_True.
  - apply not_elem_of_cons in Hfront as [Hne Hfront].
    rewrite decide_False by done.
    specialize (IH Hfront).
    destruct (list_find (λ y, y = x) (front ++ x :: rest)) as [[i z]|];
      simpl in *; [|done].
    by injection IH as ->.
Qed.

Lemma list_insert_at_first {A} (x : A) front rest :
  list_insert_at (length front) x (front ++ rest) = front ++ x :: rest.
Proof. unfold list_insert_at. by rewrite take_app_length, drop_app_length. Qed.

Lemma list_insert_at_sublist {A} i (x : A) l :
  l `sublist_of` list_insert_at i x l.
Proof.
  unfold list_insert_at. rewrite <-(take_drop i l) at 1.
  apply sublist_app; [done|]. by apply sublist_cons.
Qed.

Lemma list_insert_at_Forall {A} (P : A → Prop) i x l :
  P x → Forall P l → Forall P (list_insert_at i x l).
Proof.
  intros Hx Hl. unfold list_insert_at.
  apply Forall_app; split; [by apply Forall_take|].
  constructor; [done|by apply Forall_drop].
Qed.

(** ** The kana splice *)


Lemma key_set_query c k : key (set_query c k) = key c.
Proof. done. Qed.


Lemma insert_before_first c x front rest :
  c ∉ front →
  insert_before c (front ++ c :: rest) x = inr (front ++ x :: c :: rest).
Proof.
  intros Hfront. unfold insert_before.
  rewrite list_index_first by done. cbn [rbind ok].
  by rewrite list_insert_at_first.
Qed.

(** Inserting a run of conditions before [c], one after the other: those
    different from [c] end up in insertion order; one that is equal to [c]
    becomes the first element equal to [c], so the later ones land before
    it. *)
Lemma insert_before_run c news front n post :
  c ∉ front →
  for_each (insert_before c) (front ++ replicate (S n) c ++ post) news
  = inr ((front ++ filter (λ x, x ≠ c) news)
         ++ replicate (S (n + length (filter (λ x, x = c) news))) c ++ post).
Proof.
  revert front n. induction news as [|x news IH]; intros front n Hfront.
  - simpl. by rewrite app_nil_r, Nat.add_0_r.
  - cbn [for_each].
    replace (front ++ replicate (S n) c ++ post)
      with (front ++ c :: replicate n c ++ post) by done.
    rewrite insert_before_first by done. cbn [rbind].
    destruct (decide (x = c)) as [->|Hne].
    + rewrite filter_cons_False by naive_solver.
      rewrite filter_cons_True by done.
      change (front ++ c :: c :: replicate n c ++ post)
        with (front ++ replicate (S (S n)) c ++ post).
      rewrite IH by done. cbn [length]. by rewrite Nat.add_succ_r.
    + rewrite filter_cons_True by done.
      rewrite filter_cons_False by done.
      change (front ++ x :: c :: replicate n c ++ post)
        with (front ++ [x] ++ replicate (S n) c ++ post).
      rewrite (assoc_L (++) front [x]).
      rewrite IH
        by (rewrite not_elem_of_app, not_elem_of_cons;
            repeat split; [done|done|apply not_elem_of_nil]).
      by rewrite <-(assoc_L (++) front [x]).
Qed.

Section Splice.
Context `{TextTools} `{Romkan}.


Lemma slot_reading q c :
  field c = reading →
  slot q c = filter (λ x, x ≠ c) (kana_conditions q c)
             ++ replicate (S (length (filter (λ x, x = c) (kana_conditions q c)))) c.
Proof. intros Hr. unfold slot. by rewrite decide_True. Qed.

Lemma slot_other q c : field c ≠ reading → slot q c = [c].
Proof. intros Hr. unfold slot. by rewrite decide_False. Qed.

Lemma slot_key q c x : x ∈ slot q c → key x = key c.
Proof.
  unfold slot. case_decide; [|by intros ->%list_elem_of_singleton].
  rewrite elem_of_app. intros [Hx|Hx].
  - apply list_elem_of_filter in Hx as [_ Hx]. unfold kana_conditions in Hx.
    apply list_elem_of_fmap in Hx as (k & -> & _). apply key_set_query.
  - by apply elem_of_replicate in Hx as [-> _].
Qed.

(** The two inner loops of the splice insert [kana_conditions]. *)
Lemma splice_inner_loops q c nc :
  for_each (λ new_conditions kanafn,
      for_each (λ new_conditions romaji,
          let newcond := set_query c (kanafn romaji) in
          let* i := list_index c new_conditions in
          ok (list_insert_at i newcond new_conditions))
        new_conditions (expand_romaji (query c)))
    nc (kana_guess q)
  = for_each (insert_before c) nc (kana_conditions q c).
Proof.
  cbn zeta.
  assert (∀ kf s, for_each (λ new_conditions romaji,
          let* i := list_index c new_conditions in
          ok (list_insert_at i (set_query c (kf romaji)) new_conditions))
          s (expand_romaji (query c))
        = for_each (insert_before c) s (set_query c <$> (kf <$> expand_romaji (query c))))
    as Hin.
  { intros kf s. rewrite <-list_fmap_compose.
    apply (for_each_fmap (set_query c ∘ kf) (insert_before c)). }
  unfold kana_conditions, kana_renderings, kana_guess.
  destruct (re_search_AZ q); cbn [for_each];
    rewrite fmap_app, for_each_app, Hin;
    (destruct (for_each (insert_before c) nc _) as [e|s]; cbn [rbind]; [done|]);
    rewrite Hin; by destruct (for_each _ s _).
Qed.

(** The splice on a list whose conditions differ pairwise in their keys:
    every condition is replaced by its slot. *)
Lemma splice_kana_slots q conds :
  NoDup (key <$> conds) → splice_kana q conds = inr (conds ≫= slot q).
Proof.
  unfold splice_kana.
  set (body := λ new_conditions oldcond, if decide (field oldcond = reading) then _ else _).
  enough (∀ todo done, NoDup (key <$> (done ++ todo)) →
            for_each body ((done ≫= slot q) ++ todo) todo
            = inr ((done ++ todo) ≫= slot q)) as Hgen.
  { intros Hnd. apply (Hgen conds []), Hnd. }
  induction todo as [|c todo IH]; intros done Hnd.
  - by rewrite !app_nil_r.
  - assert (c ∉ done ≫= slot q) as Hfresh.
    { intros (d & Hc & Hd)%list_elem_of_bind. apply slot_key in Hc.
      rewrite fmap_app, fmap_cons in Hnd.
      apply NoDup_app in Hnd as (_ & Hnd & _).
      apply (Hnd (key d)); [by apply list_elem_of_fmap_2|].
      rewrite Hc. by left. }
    assert (body ((done ≫= slot q) ++ c :: todo) c
            = inr (((done ++ [c]) ≫= slot q) ++ todo)) as Hbody.
    { rewrite bind_app. change ([c] ≫= slot q) with (slot q c ++ []).
      rewrite app_nil_r. unfold body.
      destruct (decide (field c = reading)) as [Hr|Hr].
      - rewrite splice_inner_loops, (slot_reading q c Hr).
        rewrite (insert_before_run c _ (done ≫= slot q) 0 todo Hfresh).
        by rewrite Nat.add_0_l, <-!(assoc_L (++)).
      - by rewrite (slot_other q c Hr), <-(assoc_L (++)). }
    cbn [for_each]. rewrite Hbody. cbn [rbind].
    rewrite (cons_middle c done todo), (assoc_L (++)) in Hnd |- *.
    by apply IH.
Qed.

(** The splice on any list: it returns, what it returns contains the
    list it started from as a subsequence, and it keeps every property
    that insertions of requeried reading conditions keep. *)
Lemma splice_kana_invariant q conds (I : list Condition → Prop) :
  I conds →
  (∀ nc i old k, I nc → old ∈ conds → field old = reading →
     I (list_insert_at i (set_query old k) nc)) →
  ∃ fin, splice_kana q conds = inr fin ∧ conds `sublist_of` fin ∧ I fin.
Proof.
  intros Hinit Hstep. unfold splice_kana.
  apply (for_each_invariant (λ nc, conds `sublist_of` nc ∧ I nc) (λ c, c ∈ conds));
    [done|by apply Forall_forall|].
  intros nc old Hnc Hold. case_decide as Hr; [|by exists nc].
  apply (for_each_invariant _ (λ _, True)); [done|by apply Forall_true|].
  intros nc1 kanafn Hnc1 _.
  apply (for_each_invariant _ (λ _, True)); [done|by apply Forall_true|].
  intros nc2 romaji [Hsub HI] _.
  destruct (list_index_elem_of old nc2) as [i Hi].
  { eapply sublist_submseteq, elem_of_submseteq in Hsub; done. }
  exists (list_insert_at i (set_query old (kanafn romaji)) nc2).
  cbn zeta. rewrite Hi. split; [done|]. split; [|by apply Hstep].
  etrans; [done|apply list_insert_at_sublist].
Qed.

End Splice.

(** ** Facts about the generated list *)

Lemma StronglySorted_key (R : relation (Field * Extent * bool)) l :
  StronglySorted R (key <$> l) → StronglySorted (λ a b, R (key a) (key b)) l.
Proof.
  induction l as [|c l IH]; intros Hs; [constructor|].
  rewrite fmap_cons in Hs. apply StronglySorted_inv in Hs as [Hs Hc].
  constructor; [by apply IH|]. rewrite Forall_fmap in Hc. exact Hc.
Qed.



Section Generated.
Context `{TextTools}.

Lemma generate_keys_NoDup args q : NoDup (key <$> generate args q).
Proof. generate_cases args q; by_evaluation. Qed.

(** The keys that are not loop variables are those of [search_args]. *)
Lemma generate_elem args q c :
  c ∈ generate args q →
  query c = q ∧ case_sensitive c = derive_case_sensitive args q
  ∧ frequent c = args_frequent args.
Proof.
  unfold generate, nested_conditions. intros Hc.
  apply list_elem_of_bind in Hc as (rx & Hc & _).
  apply list_elem_of_bind in Hc as (e & Hc & _).
  apply list_elem_of_bind in Hc as (f & Hc & _).
  repeat case_decide;
    first [by apply elem_of_nil in Hc
          |by apply list_elem_of_singleton in Hc as ->].
Qed.

End Generated.

Section Final.
Context `{TextTools} `{Romkan}.

(** [final_conditions] never raises: the [index] of line 303 always
    finds its argument. *)
Lemma final_conditions_invariant args q (I : list Condition → Prop) :
  I (generate args q) →
  (∀ nc i old k, I nc → old ∈ generate args q → field old = reading →
     I (list_insert_at i (set_query old k) nc)) →
  ∃ fin, final_conditions args q = inr fin
         ∧ generate args q `sublist_of` fin ∧ I fin.
Proof.
  intros Hinit Hstep. unfold final_conditions. cbn zeta.
  destruct (bool_decide _ && is_romaji q).
  - by apply splice_kana_invariant.
  - by exists (generate args q).
Qed.

Lemma final_conditions_Forall args q (P : Condition → Prop) :
  (∀ c k, P c → P (set_query c k)) →
  Forall P (generate args q) →
  ∃ fin, final_conditions args q = inr fin ∧ Forall P fin.
Proof.
  intros Hset Hgen.
  destruct (final_conditions_invariant args q (Forall P)) as (fin & ? & _ & ?);
    [done| |by exists fin].
  intros nc i old k Hnc Hold _. apply list_insert_at_Forall; [|done].
  apply Hset. by apply (proj1 (Forall_forall _ _) Hgen).
Qed.

(** The final list in full: every generated condition replaced by its
    slot when the splice runs. *)
Lemma final_conditions_slots args q :
  final_conditions args q
  = inr (if bool_decide (args_field args ∈ [field_auto; reading]) && is_romaji q
         then generate args q ≫= slot q
         else generate args q).
Proof.
  unfold final_conditions. cbn zeta.
  destruct (bool_decide _ && is_romaji q); [|done].
  apply splice_kana_slots, generate_keys_NoDup.
Qed.

End Final.

(** ** The claims about generation *)



Section GenerationClaims.
Context `{TextTools} `{Romkan}.

(** C2: with the field left to [auto], the fields are tried in an order
    that is a permutation of kanji, reading and gloss, fixed by the
    classification of the query taken in priority: gloss, reading, kanji
    for a Latin query; reading, gloss, kanji for another rōmaji query;
    reading, kanji, gloss for a kana query; kanji, reading, gloss
    otherwise.  The first three generated conditions carry the fields in
    that order. *)
Theorem auto_field_order args q :
  args_field args = field_auto →
  fields_of (args_field args) q ≡ₚ [kanji; reading; gloss]
  ∧ length (fields_of (args_field args) q) = 3
  ∧ (is_latin q = true →
       fields_of (args_field args) q = [gloss; reading; kanji])
  ∧ (is_latin q = false → is_romaji q = true →
       fields_of (args_field args) q = [reading; gloss; kanji])
  ∧ (is_latin q = false → is_romaji q = false → is_kana q = true →
       fields_of (args_field args) q = [reading; kanji; gloss])
  ∧ (is_latin q = false → is_romaji q = false → is_kana q = false →
       fields_of (args_field args) q = [kanji; reading; gloss])
  ∧ field <$> take 3 (generate args q) = fields_of (args_field args) q.
Proof.
  intros Hf. generate_cases args q; try discriminate Hf;
    (split; [by_evaluation|]); repeat split; try done; by vm_compute.
Qed.

(** C4: the loops run over the regexp modes, then the extents, then the
    fields: in the generated list no regexp condition comes before a
    literal one; under an [auto] extent, within one regexp mode, the
    conditions come pass by pass, those of extent whole, then word, then
    partial; with an explicit extent there is a single pass, in which
    every field occurs once.  The list is, regexp mode after regexp mode:
    under an [auto] extent the conditions of extent whole for all the
    fields in their order, then the one of extent word for gloss (when
    gloss is among the fields), then those of extent partial for all the
    fields; with an explicit extent one condition for each field in their
    order, of that extent (whole in the place of word for a field other
    than gloss). *)
Theorem generation_order args q :
  StronglySorted (λ c1 c2, regexp c1 = true → regexp c2 = true)
    (generate args q)
  ∧ (args_extent args = extent_auto →
       StronglySorted
         (λ c1 c2, regexp c1 = regexp c2 → pass_le (extent c1) (extent c2))
         (generate args q))
  ∧ (args_extent args ≠ extent_auto →
       StronglySorted (λ c1 c2, regexp c1 = regexp c2 → field c1 ≠ field c2)
         (generate args q))
  ∧ (args_extent args = extent_auto →
       generate args q
       = rx ← regexp_flags_of (args_regexp args) q;
         ((λ f, with_keys (search_args_of args q) f whole rx)
            <$> fields_of (args_field args) q)
         ++ ((λ f, with_keys (search_args_of args q) f word rx)
               <$> filter (λ f, f = gloss) (fields_of (args_field args) q))
         ++ ((λ f, with_keys (search_args_of args q) f partial rx)
               <$> fields_of (args_field args) q))
  ∧ (args_extent args ≠ extent_auto →
       generate args q
       = rx ← regexp_flags_of (args_regexp args) q;
         (λ f, with_keys (search_args_of args q) f
                 (if decide (normalize_extent args = word ∧ f ≠ gloss)
                  then whole else normalize_extent args) rx)
           <$> fields_of (args_field args) q).
Proof.
  split; [|split; [|split; [|split]]].
  - apply (StronglySorted_key (λ k1 k2, k1.2 = true → k2.2 = true)).
    generate_cases args q; by_evaluation.
  - intros He.
    apply (StronglySorted_key (λ k1 k2, k1.2 = k2.2 → pass_le k1.1.2 k2.1.2)).
    generate_cases args q; try discriminate He; by_evaluation.
  - intros He.
    apply (StronglySorted_key (λ k1 k2, k1.2 = k2.2 → k1.1.1 ≠ k2.1.1)).
    generate_cases args q; try (by destruct He); by_evaluation.
  - intros He. generate_cases args q; try discriminate He; reflexivity.
  - intros He. generate_cases args q; try (by destruct He); reflexivity.
Qed.

(** C5: with extent and field both left to [auto], no generated
    condition, and no condition of the final list, has extent word and
    field kanji or reading. *)
Theorem auto_skips_word_outside_gloss args q :
  args_extent args = extent_auto → args_field args = field_auto →
  Forall (λ c, ¬ (extent c = word ∧ field c ∈ [kanji; reading]))
    (generate args q)
  ∧ ∃ fin, final_conditions args q = inr fin
      ∧ Forall (λ c, ¬ (extent c = word ∧ field c ∈ [kanji; reading])) fin.
Proof.
  intros He Hf.
  assert (Forall (λ c, ¬ (extent c = word ∧ field c ∈ [kanji; reading]))
            (generate args q)) as Hgen.
  { apply (Forall_fmap key (λ k, ¬ (k.1.2 = word ∧ k.1.1 ∈ [kanji; reading]))).
    generate_cases args q; try discriminate He; try discriminate Hf;
      by_evaluation. }
  split; [done|]. by apply final_conditions_Forall.
Qed.

(** C6, amended: with extent word and field kanji there is one
    condition per regexp mode, each with field kanji and extent whole:
    a single condition when regexp is forced or the query has no
    regexp-special character, a literal one followed by a regexp one
    otherwise; the kana splice adds nothing. *)
Theorem word_kanji_conditions args q :
  args_extent args = word → args_field args = kanji →
  let cond rx :=
    {| field := kanji; query := q; extent := whole; regexp := rx;
       case_sensitive := derive_case_sensitive args q;
       frequent := args_frequent args |} in
  generate args q
  = (if args_regexp args then [cond true]
     else if has_regexp_special q then [cond false; cond true]
     else [cond false])
  ∧ final_conditions args q = inr (generate args q).
Proof.
  intros He Hf cond. split.
  - subst cond. destruct args as [? fld ? rx ext ? ? ?]. simpl in He, Hf. subst.
    unfold generate, regexp_flags_of. cbn [args_regexp].
    by destruct rx, (has_regexp_special q).
  - rewrite final_conditions_slots, Hf. done.
Qed.


(** C10: the kana splice only inserts.  On any list of conditions it
    returns a list of which the given one is a subsequence; so the
    generated conditions all occur in the final list, unchanged and in
    their order, whether or not the splice ran. *)
Theorem splice_only_inserts args q :
  (∀ conds, ∃ fin, splice_kana q conds = inr fin ∧ conds `sublist_of` fin)
  ∧ ∃ fin, final_conditions args q = inr fin
      ∧ generate args q `sublist_of` fin.
Proof.
  split.
  - intros conds.
    destruct (splice_kana_invariant q conds (λ _, True)) as (fin & ? & ? & _);
      [done..|by exists fin].
  - destruct (final_conditions_invariant args q (λ _, True)) as (fin & ? & ? & _);
      [done..|by exists fin].
Qed.

End GenerationClaims.

(** ** The claims about the kana splice *)

Lemma filter_Forall_id {A} (P : A → Prop) `{∀ x, Decision (P x)} (l : list A) :
  Forall P l → filter P l = l.
Proof.
  induction 1 as [|x l Hx _ IH]; [done|].
  by rewrite filter_cons_True, IH.
Qed.

Lemma filter_Forall_nil {A} (P : A → Prop) `{∀ x, Decision (P x)} (l : list A) :
  Forall (λ x, ¬ P x) l → filter P l = [].
Proof.
  induction 1 as [|x l Hx _ IH]; [done|].
  by rewrite filter_cons_False.
Qed.

Section SpliceClaims.
Context `{TextTools} `{Romkan}.

(** The slot of a reading condition ends in the condition itself; what
    precedes it differs from it in the query at most. *)
Lemma slot_reading_split q c :
  field c = reading →
  ∃ kana, slot q c = kana ++ [c] ∧ Forall (λ x, key x = key c) kana
          ∧ length kana = length (kana_conditions q c).
Proof.
  intros Hr. rewrite (slot_reading q c Hr).
  exists (filter (λ x, x ≠ c) (kana_conditions q c)
          ++ replicate (length (filter (λ x, x = c) (kana_conditions q c))) c).
  split; [by rewrite replicate_S_end, (assoc_L (++))|]. split.
  - apply Forall_app. split.
    + apply Forall_forall. intros x Hx%list_elem_of_filter.
      destruct Hx as [_ Hx]. unfold kana_conditions in Hx.
      by apply list_elem_of_fmap in Hx as (k & -> & _).
    + apply Forall_forall. by intros x [-> _]%elem_of_replicate.
  - rewrite length_app, length_replicate.
    induction (kana_conditions q c) as [|x l IH]; [done|].
    destruct (decide (x = c)) as [Hx|Hx].
    + rewrite filter_cons_False, filter_cons_True by naive_solver.
      cbn [length]. lia.
    + rewrite filter_cons_True, filter_cons_False by done.
      cbn [length]. lia.
Qed.

Lemma set_query_same c : set_query c (query c) = c.
Proof. by destruct c. Qed.

(** When no kana rendering is the query itself, or when all of them are,
    the slot is the kana conditions in the order of their insertion, then
    the condition. *)
Lemma slot_reading_uniform q c :
  field c = reading →
  (∀ k, k ∈ kana_renderings q (query c) → k ≠ query c)
  ∨ (∀ k, k ∈ kana_renderings q (query c) → k = query c) →
  slot q c = kana_conditions q c ++ [c].
Proof.
  intros Hr [Hne|Heq]; rewrite (slot_reading q c Hr).
  - assert (Forall (λ x, x ≠ c) (kana_conditions q c)) as Hall.
    { apply Forall_forall. intros x Hx Hxc. unfold kana_conditions in Hx.
      apply list_elem_of_fmap in Hx as (k & Hk & Hin).
      apply (Hne k Hin). by rewrite <-Hxc, Hk. }
    rewrite (filter_Forall_id _ _ Hall).
    rewrite (filter_Forall_nil (λ x, x = c)); [done|].
    eapply Forall_impl; [exact Hall|]. naive_solver.
  - assert (Forall (λ x, x = c) (kana_conditions q c)) as Hall.
    { apply Forall_forall. intros x Hx. unfold kana_conditions in Hx.
      apply list_elem_of_fmap in Hx as (k & -> & Hin).
      rewrite (Heq k Hin). apply set_query_same. }
    rewrite (filter_Forall_id _ _ Hall).
    rewrite (filter_Forall_nil (λ x, x ≠ c))
      by (eapply Forall_impl; [exact Hall|]; naive_solver).
    rewrite replicate_S_end. cbn [app]. f_equal.
    apply replicate_as_Forall. split; [done|].
    eapply Forall_impl; [exact Hall|]. naive_solver.
Qed.

(** C7, amended: for a query that looks like rōmaji, with the field left
    to [auto] or set to reading, and a transliteration whose renderings of
    the variants of the query all differ from the query (or all leave it
    as it is), the final list is the generated list in which
    every reading condition is preceded, immediately, by its kana
    conditions: copies in which only the query differs, the query being
    each variant of [expand_romaji] in hiragana and then each variant in
    katakana when the query has no character in [A-Z], in katakana and
    then in hiragana when it has one. *)
Theorem kana_conditions_before_reading args q :
  is_romaji q = true →
  args_field args ∈ [field_auto; reading] →
  (∀ r, r ∈ expand_romaji q → to_hiragana r ≠ q ∧ to_katakana r ≠ q)
  ∨ (∀ r, r ∈ expand_romaji q → to_hiragana r = q ∧ to_katakana r = q) →
  let variants := expand_romaji q in
  let kana :=
    if re_search_AZ q
    then (to_katakana <$> variants) ++ (to_hiragana <$> variants)
    else (to_hiragana <$> variants) ++ (to_katakana <$> variants) in
  final_conditions args q
  = inr (c ← generate args q;
         if decide (field c = reading)
         then (set_query c <$> kana) ++ [c]
         else [c])
  ∧ ∀ c k, field (set_query c k) = field c
           ∧ extent (set_query c k) = extent c
           ∧ regexp (set_query c k) = regexp c
           ∧ case_sensitive (set_query c k) = case_sensitive c
           ∧ frequent (set_query c k) = frequent c
           ∧ query (set_query c k) = k.
Proof.
  intros Hromaji Hfield Hne variants kana. split; [|done].
  rewrite final_conditions_slots, Hromaji, bool_decide_eq_true_2 by done.
  cbn [andb]. f_equal. apply Forall_bind_ext, Forall_forall.
  intros c Hc. destruct (generate_elem args q c Hc) as (Hq & _).
  case_decide as Hr; [|by apply slot_other].
  rewrite slot_reading_uniform; [by unfold kana_conditions; rewrite Hq|done|].
  rewrite Hq. unfold kana_renderings.
  destruct Hne as [Hne|Heq]; [left|right]; intros k Hk;
    destruct (re_search_AZ q);
    apply elem_of_app in Hk as [Hk|Hk];
    apply list_elem_of_fmap in Hk as (r & -> & Hr');
    first [by destruct (Hne r Hr')|by destruct (Heq r Hr')].
Qed.

(** The slot of a reading condition, the kana conditions equal to it
    written as such. *)
Lemma slot_reading_by_value q c :
  field c = reading →
  slot q c = filter (λ x, x ≠ c) (kana_conditions q c)
             ++ filter (λ x, x = c) (kana_conditions q c) ++ [c].
Proof.
  intros Hr. rewrite (slot_reading q c Hr), replicate_S_end.
  do 2 f_equal. apply replicate_as_Forall. split; [done|].
  apply Forall_forall. by intros x [-> _]%list_elem_of_filter.
Qed.

(** C3, amended: for the query ["cat"], Latin and without a
    regexp-special character, with field and extent left to [auto] and
    regexp not forced, the first condition is gloss with extent whole;
    next come the reading conditions of extent whole and the kanji
    condition of extent whole; only then gloss with extent word and
    gloss with extent partial, followed by the reading and kanji
    conditions of extent partial.  The reading conditions of an extent
    are, when ["cat"] counts as rōmaji, the kana conditions (the reading
    condition with, as its query, each variant of ["cat"] in hiragana,
    then each variant in katakana; those equal to the reading condition
    after those that differ from it) and then the reading condition with
    ["cat"] itself; when it does not, that last condition alone. *)
Theorem cat_conditions args :
  is_latin "cat" = true → has_regexp_special "cat" = false →
  args_field args = field_auto → args_extent args = extent_auto →
  args_regexp args = false →
  let cond f e :=
    {| field := f; query := "cat"; extent := e; regexp := false;
       case_sensitive := args_case_sensitive args;
       frequent := args_frequent args |} in
  let kana c :=
    if is_romaji "cat" then
      filter (λ x, x ≠ c)
        (set_query c <$> (to_hiragana <$> expand_romaji "cat")
                         ++ (to_katakana <$> expand_romaji "cat"))
      ++ filter (λ x, x = c)
           (set_query c <$> (to_hiragana <$> expand_romaji "cat")
                            ++ (to_katakana <$> expand_romaji "cat"))
    else [] in
  generate args "cat"
  = [cond gloss whole; cond reading whole; cond kanji whole;
     cond gloss word;
     cond gloss partial; cond reading partial; cond kanji partial]
  ∧ final_conditions args "cat"
    = inr ([cond gloss whole]
           ++ kana (cond reading whole)
           ++ [cond reading whole; cond kanji whole;
               cond gloss word; cond gloss partial]
           ++ kana (cond reading partial)
           ++ [cond reading partial; cond kanji partial]).
Proof.
  intros Hlatin Hspecial Hf He Hrx cond kana.
  assert (generate args "cat"
          = [cond gloss whole; cond reading whole; cond kanji whole;
             cond gloss word;
             cond gloss partial; cond reading partial; cond kanji partial])
    as Hgen.
  { subst cond. destruct args as [? fld cs rx ext ? ? ?].
    simpl in Hf, He, Hrx. subst.
    unfold generate, fields_of, regexp_flags_of.
    cbn [args_field args_regexp]. rewrite Hlatin, Hspecial.
    by destruct cs. }
  split; [done|].
  rewrite final_conditions_slots, Hgen, Hf. subst kana.
  destruct (is_romaji "cat"); [|done].
  cbn [mbind list_bind bool_decide andb].
  rewrite (slot_reading_by_value "cat" (cond reading whole)) by done.
  rewrite (slot_reading_by_value "cat" (cond reading partial)) by done.
  rewrite !slot_other by done.
  f_equal. unfold kana_conditions, kana_renderings. cbn [re_search_AZ query].
  by simplify_list_eq.
Qed.

End SpliceClaims.

(** ** The claims about the cascade *)


Lemma guess_skip search_by pre rest log :
  Forall (no_entry search_by) pre →
  guess search_by (pre ++ rest) log = guess search_by rest (log ++ pre).
Proof.
  intros Hpre. revert log.
  induction Hpre as [|c pre Hc _ IH]; intros log; [by rewrite app_nil_r|].
  cbn [app guess]. unfold cbind, invoke. rewrite Hc.
  by rewrite IH, <-(assoc_L (++)).
Qed.

Lemma guess_exhausted search_by conditions log :
  Forall (no_entry search_by) conditions →
  guess search_by conditions log = (log ++ conditions, inr (None, [])).
Proof.
  intros Hall. rewrite <-(app_nil_r conditions) at 1.
  by rewrite guess_skip.
Qed.

Lemma guess_found search_by pre c post ids log :
  Forall (no_entry search_by) pre → search_by c = inr ids → ids ≠ [] →
  guess search_by (pre ++ c :: post) log
  = (log ++ pre ++ [c], inr (Some c, ids)).
Proof.
  intros Hpre Hc Hids. rewrite guess_skip by done.
  cbn [guess]. unfold cbind, invoke. rewrite Hc.
  destruct ids; [done|]. by rewrite (assoc_L (++)).
Qed.

Lemma guess_raises search_by pre c post e log :
  Forall (no_entry search_by) pre → search_by c = inl e →
  guess search_by (pre ++ c :: post) log = (log ++ pre ++ [c], inl e).
Proof.
  intros Hpre Hc. rewrite guess_skip by done.
  cbn [guess]. unfold cbind, invoke. by rewrite Hc, (assoc_L (++)).
Qed.

(** C1: the cascade hands the conditions to the matcher in the order
    of the list, each once.  At the first condition whose result is not
    empty it stops: it returns that condition with that result, and the
    matcher has seen the conditions up to that one and none after it.
    When every result is empty it returns no condition and no entry,
    after one call per condition. *)
Theorem guess_first_match (search_by : Matcher) (conditions log : list Condition) :
  (∀ pre c post ids,
     conditions = pre ++ c :: post →
     Forall (no_entry search_by) pre → search_by c = inr ids → ids ≠ [] →
     guess search_by conditions log = (log ++ pre ++ [c], inr (Some c, ids)))
  ∧ (Forall (no_entry search_by) conditions →
     guess search_by conditions log = (log ++ conditions, inr (None, []))).
Proof.
  split.
  - intros pre c post ids -> Hpre Hc Hids. by apply guess_found.
  - apply guess_exhausted.
Qed.

Section RunClaims.
Context `{TextTools} `{Romkan}.

(** C9: when [run] gets as far as the cascade and no condition has an
    entry, it returns [None], after one call of the matcher per
    condition; it does not raise.  An exception of the matcher, on the
    other hand, leaves [run] as that exception. *)
Theorem no_match_returns_None env args words cur log :
  config_present env = true →
  opendb env (derive_case_sensitive args (join_query words)) = Some cur →
  args_version args = false →
  args_list_abbrevs args = false →
  truthy (args_abbrev args) = false →
  join_query words ≠ "" →
  ∃ conditions,
    final_conditions args (join_query words) = inr conditions
    ∧ (Forall (no_entry cur) conditions →
         run env args words log = (log ++ conditions, inr None))
    ∧ (∀ pre c post e,
         conditions = pre ++ c :: post →
         Forall (no_entry cur) pre → cur c = inl e →
         run env args words log = (log ++ pre ++ [c], inl e)).
Proof.
  intros Hconfig Hdb Hver Habbrevs Habbrev Hq.
  destruct (final_conditions_invariant args (join_query words) (λ _, True))
    as (conditions & Hfin & _); [done..|].
  exists conditions. split; [done|].
  unfold run. cbn zeta.
  rewrite Hconfig, Hdb, Hver, Habbrevs, Habbrev, bool_decide_eq_false_2 by done.
  cbn [negb]. rewrite Hfin. cbv [cbind lift]. split.
  - intros Hall. by rewrite guess_exhausted.
  - intros pre c post e -> Hpre Hc. by rewrite (guess_raises _ _ _ _ e).
Qed.

End RunClaims.


(** ** Further properties of [run] before the cascade *)

Lemma re_search_AZ_app s1 s2 :
  re_search_AZ (s1 ++ s2)%string = re_search_AZ s1 || re_search_AZ s2.
Proof.
  induction s1 as [|c s1 IH]; simpl; [done|].
  by rewrite IH, orb_assoc.
Qed.

Lemma string_app_nonempty s1 c s2 : (s1 ++ String c s2)%string ≠ "".
Proof. by destruct s1. Qed.

Lemma join_query_cons w words :
  words ≠ [] → join_query (w :: words) = (w ++ " " ++ join_query words)%string.
Proof. by destruct words. Qed.

Lemma join_query_empty words :
  join_query words = "" ↔ words = [] ∨ words = [""].
Proof.
  destruct words as [|w [|w' words]].
  - split; [by left|done].
  - cbn. split; [by intros ->; right|by intros [?|[= ->]]].
  - rewrite join_query_cons by done. split.
    + intros Hq. by apply string_app_nonempty in Hq.
    + intros [?|?]; discriminate.
Qed.

(** The case-sensitivity flag is derived from the joined query: a
    character of [A-Z] in any of the words sets it. *)
Theorem uppercase_in_any_word args words :
  derive_case_sensitive args (join_query words)
  = args_case_sensitive args || existsb re_search_AZ words.
Proof.
  assert (re_search_AZ (join_query words) = existsb re_search_AZ words) as Hre.
  { induction words as [|w words IH]; [done|].
    destruct words as [|w' words]; [cbn; by rewrite orb_false_r|].
    rewrite join_query_cons by done.
    rewrite !re_search_AZ_app, IH. cbn. by rewrite orb_false_r. }
  unfold derive_case_sensitive. rewrite Hre.
  by destruct (args_case_sensitive args), (existsb re_search_AZ words).
Qed.

Section BeforeCascade.
Context `{TextTools} `{Romkan}.

(** Once config and database are found and no short command is given,
    [run] stops with status 2, without a call of the matcher, exactly
    when it was given no word or a single empty word; any other list of
    words, even of empty words, reaches the cascade. *)
Theorem empty_query_rejected env args words cur log :
  config_present env = true →
  opendb env (derive_case_sensitive args (join_query words)) = Some cur →
  args_version args = false →
  args_list_abbrevs args = false →
  truthy (args_abbrev args) = false →
  (words = [] ∨ words = [""] →
     run env args words log = (log, inl (SystemExit 2)))
  ∧ (¬ (words = [] ∨ words = [""]) →
     ∃ conditions,
       final_conditions args (join_query words) = inr conditions
       ∧ run env args words log
         = (let! (chosen_search, ent_seqs) := guess cur conditions in
            present env chosen_search ent_seqs) log).
Proof.
  intros Hconfig Hdb Hver Habbrevs Habbrev.
  unfold run. cbn zeta. rewrite Hconfig, Hdb, Hver, Habbrevs, Habbrev. cbn [negb].
  split.
  - intros Hq%join_query_empty. by rewrite bool_decide_eq_true_2.
  - intros Hq. rewrite <-join_query_empty in Hq.
    rewrite bool_decide_eq_false_2 by done.
    destruct (final_conditions_invariant args (join_query words) (λ _, True))
      as (conditions & Hfin & _); [done..|].
    exists conditions. split; [done|]. by rewrite Hfin.
Qed.

(** The exits of [run] ahead of the query: a missing config or a
    database that does not open in the derived case mode ends the run
    with status 2, also when a short command was asked for; otherwise
    [--version], [--list-abbrevs] and [-a] end it with status 0 whatever
    the query.  None of these runs calls the matcher. *)
Theorem run_exits_before_cascade env args words log :
  (config_present env = false →
     run env args words log = (log, inl (SystemExit 2)))
  ∧ (opendb env (derive_case_sensitive args (join_query words)) = None →
     run env args words log = (log, inl (SystemExit 2)))
  ∧ (config_present env = true →
     is_Some (opendb env (derive_case_sensitive args (join_query words))) →
     args_version args = true ∨ args_list_abbrevs args = true
       ∨ truthy (args_abbrev args) = true →
     run env args words log = (log, inl (SystemExit 0))).
Proof.
  unfold run. cbn zeta. split; [|split].
  - by intros ->.
  - intros ->. by destruct (config_present env).
  - intros -> [cur ->] Hshort. cbn [negb].
    destruct (args_version args); [done|].
    destruct (args_list_abbrevs args); [done|].
    destruct (truthy (args_abbrev args)); [done|].
    by destruct Hshort as [?|[?|?]].
Qed.

End BeforeCascade.

(** ** Further properties of the generated and the final list *)

Section Lists.
Context `{TextTools} `{Romkan}.

(** A property of the keys that holds on the generated list holds on the
    final list as well. *)
Lemma keys_generated_final args q (P : Field * Extent * bool → Prop) :
  Forall P (key <$> generate args q) →
  Forall (λ c, P (key c)) (generate args q)
  ∧ ∃ fin, final_conditions args q = inr fin ∧ Forall (λ c, P (key c)) fin.
Proof.
  intros Hkeys. rewrite Forall_fmap in Hkeys.
  split; [exact Hkeys|]. by apply final_conditions_Forall.
Qed.

(** Whatever the options, no condition handed to the cascade has extent
    word with a field other than gloss. *)
Theorem never_word_outside_gloss args q :
  Forall (λ c, ¬ (extent c = word ∧ field c ≠ gloss)) (generate args q)
  ∧ ∃ fin, final_conditions args q = inr fin
      ∧ Forall (λ c, ¬ (extent c = word ∧ field c ≠ gloss)) fin.
Proof.
  apply (keys_generated_final args q (λ k, ¬ (k.1.2 = word ∧ k.1.1 ≠ gloss))).
  generate_cases args q; by_evaluation.
Qed.

(** [auto] is resolved during generation: no condition has it as its
    field or as its extent. *)
Theorem conditions_are_concrete args q :
  Forall (λ c, field c ≠ field_auto ∧ extent c ≠ extent_auto) (generate args q)
  ∧ ∃ fin, final_conditions args q = inr fin
      ∧ Forall (λ c, field c ≠ field_auto ∧ extent c ≠ extent_auto) fin.
Proof.
  apply (keys_generated_final args q
           (λ k, k.1.1 ≠ field_auto ∧ k.1.2 ≠ extent_auto)).
  generate_cases args q; by_evaluation.
Qed.

(** A field chosen on the command line is the field of every
    condition. *)
Theorem explicit_field_kept args q :
  args_field args ≠ field_auto →
  Forall (λ c, field c = args_field args) (generate args q)
  ∧ ∃ fin, final_conditions args q = inr fin
      ∧ Forall (λ c, field c = args_field args) fin.
Proof.
  intros Hf.
  apply (keys_generated_final args q (λ k, k.1.1 = args_field args)).
  generate_cases args q; try (by destruct Hf); by_evaluation.
Qed.

(** An extent chosen on the command line is the extent of every
    condition, but for word, which is kept for gloss and replaced by whole
    for kanji and reading. *)
Theorem explicit_extent_kept args q :
  args_extent args ≠ extent_auto →
  Forall (λ c, (args_extent args = word ∧ field c ≠ gloss → extent c = whole)
               ∧ (¬ (args_extent args = word ∧ field c ≠ gloss) →
                  extent c = args_extent args))
    (generate args q)
  ∧ ∃ fin, final_conditions args q = inr fin
      ∧ Forall (λ c, (args_extent args = word ∧ field c ≠ gloss →
                      extent c = whole)
                     ∧ (¬ (args_extent args = word ∧ field c ≠ gloss) →
                        extent c = args_extent args))
          fin.
Proof.
  intros He.
  apply (keys_generated_final args q
           (λ k, (args_extent args = word ∧ k.1.1 ≠ gloss → k.1.2 = whole)
                 ∧ (¬ (args_extent args = word ∧ k.1.1 ≠ gloss) →
                    k.1.2 = args_extent args))).
  generate_cases args q; try (by destruct He); by_evaluation.
Qed.

(** The regexp modes: with [-x] every condition is a regexp; without it
    and without a regexp-special character every condition is literal;
    without it and with such a character the list is the literal
    conditions followed by the same conditions as regexps, in the same
    order. *)
Theorem regexp_modes args q :
  (args_regexp args = true →
     Forall (λ c, regexp c = true) (generate args q))
  ∧ (args_regexp args = false → has_regexp_special q = false →
     Forall (λ c, regexp c = false) (generate args q))
  ∧ (args_regexp args = false → has_regexp_special q = true →
     generate args q
     = filter (λ c, regexp c = false) (generate args q)
       ++ ((λ c, with_keys c (field c) (extent c) true)
             <$> filter (λ c, regexp c = false) (generate args q))).
Proof.
  split; [|split].
  - intros Hrx. apply (Forall_fmap key (λ k, k.2 = true)).
    generate_cases args q; try discriminate Hrx; by_evaluation.
  - destruct (has_regexp_special q) eqn:Hsp; [done|].
    intros Hrx _. apply (Forall_fmap key (λ k, k.2 = false)).
    destruct args as [? fld ? rx ext ? ? ?]. cbn in Hrx. subst rx.
    destruct fld, ext;
      unfold generate, fields_of, regexp_flags_of;
      cbn [args_field args_extent args_regexp]; rewrite Hsp;
      destruct (is_latin q), (is_romaji q), (is_kana q); by_evaluation.
  - destruct (has_regexp_special q) eqn:Hsp; [|done].
    intros Hrx _.
    destruct args as [? fld ? rx ext ? ? ?]. cbn in Hrx. subst rx.
    destruct fld, ext;
      unfold generate, fields_of, regexp_flags_of;
      cbn [args_field args_extent args_regexp]; rewrite Hsp;
      destruct (is_latin q), (is_romaji q), (is_kana q); reflexivity.
Qed.

(** The number of generated conditions: per regexp mode, one for each
    field with an explicit extent; under the [auto] extent two for each
    field (whole and partial) and a third one (word) for gloss. *)
Theorem generate_length args q :
  length (generate args q)
  = length (regexp_flags_of (args_regexp args) q)
    * (if decide (normalize_extent args = extent_auto)
       then 2 * length (fields_of (args_field args) q)
            + (if bool_decide (gloss ∈ fields_of (args_field args) q)
               then 1 else 0)
       else length (fields_of (args_field args) q)).
Proof. generate_cases args q; reflexivity. Qed.

(** No search is generated twice: the generated conditions differ
    pairwise, already in field, extent or regexp mode; and there is at
    least one. *)
Theorem generate_no_duplicates args q :
  NoDup (generate args q) ∧ NoDup (key <$> generate args q)
  ∧ generate args q ≠ [].
Proof.
  split; [|split].
  - eapply NoDup_fmap_1, generate_keys_NoDup.
  - apply generate_keys_NoDup.
  - intros Hnil. apply (f_equal length) in Hnil. revert Hnil.
    generate_cases args q; discriminate.
Qed.

End Lists.

(** ** Further properties of the kana splice *)

Lemma StronglySorted_same_key (R : relation (Field * Extent * bool)) l k :
  R k k → Forall (λ x, key x = k) l →
  StronglySorted (λ a b, R (key a) (key b)) l.
Proof.
  intros Hk. induction 1 as [|x l Hx Hl IH]; constructor; [done|].
  rewrite Hx. eapply Forall_impl; [exact Hl|]. by intros y ->.
Qed.

Section SpliceMore.
Context `{TextTools} `{Romkan}.

Lemma kana_renderings_length q q0 :
  length (kana_renderings q q0) = 2 * length (expand_romaji q0).
Proof.
  unfold kana_renderings.
  destruct (re_search_AZ q); rewrite length_app, !length_fmap; lia.
Qed.

Lemma slot_elem q c x :
  x ∈ slot q c →
  x = c ∨ (field c = reading
           ∧ ∃ k, k ∈ kana_renderings q (query c) ∧ x = set_query c k).
Proof.
  destruct (decide (field c = reading)) as [Hr|Hr].
  - rewrite (slot_reading q c Hr), elem_of_app. intros [Hx|Hx].
    + apply list_elem_of_filter in Hx as [_ Hx]. unfold kana_conditions in Hx.
      apply list_elem_of_fmap in Hx as (k & -> & Hk). right. eauto.
    + left. by apply elem_of_replicate in Hx as [-> _].
  - rewrite (slot_other q c Hr). intros ->%list_elem_of_singleton. by left.
Qed.

Lemma slots_length q l :
  Forall (λ c, query c = q) l →
  length (l ≫= slot q)
  = length l
    + 2 * length (expand_romaji q) * length (filter (λ c, field c = reading) l).
Proof.
  induction 1 as [|c l Hq _ IH]; [cbn; lia|].
  change ((c :: l) ≫= slot q) with (slot q c ++ (l ≫= slot q)).
  rewrite length_app, IH. cbn [length].
  destruct (decide (field c = reading)) as [Hr|Hr].
  - destruct (slot_reading_split q c Hr) as (kana & -> & _ & Hlen).
    unfold kana_conditions in Hlen.
    rewrite length_fmap, kana_renderings_length, Hq in Hlen.
    rewrite filter_cons_True, length_app, Hlen by done. cbn [length]. nia.
  - rewrite (slot_other q c Hr), filter_cons_False by done. cbn [length]. lia.
Qed.

Lemma slots_sorted (R : relation (Field * Extent * bool)) q l :
  Forall (λ c, R (key c) (key c)) l →
  StronglySorted (λ a b, R (key a) (key b)) l →
  StronglySorted (λ a b, R (key a) (key b)) (l ≫= slot q).
Proof.
  intros Hrefl Hsorted.
  induction Hsorted as [|c l _ IH Hc]; [constructor|].
  apply Forall_cons in Hrefl as [Hcc Hrefl].
  change ((c :: l) ≫= slot q) with (slot q c ++ (l ≫= slot q)).
  apply StronglySorted_app_2; [|  |by apply IH].
  - intros x1 x2 Hx1 (d & Hx2 & Hd)%list_elem_of_bind.
    rewrite (slot_key q c x1 Hx1), (slot_key q d x2 Hx2).
    by apply (proj1 (Forall_forall _ _) Hc).
  - apply (StronglySorted_same_key R _ (key c)); [done|].
    apply Forall_forall. intros x. apply slot_key.
Qed.

(** The splice in full, whatever the transliteration returns.  When it
    runs, every reading condition is replaced by its kana conditions and
    itself, [index] comparing by value: the kana conditions that differ
    from the reading condition come first, in the order of their
    insertion, those equal to it next, the reading condition last.  When
    it does not run (a kanji or gloss search, or a query that does not look
    like rōmaji) the final list is the generated list. *)
Theorem splice_by_value args q :
  let variants := expand_romaji q in
  let kana :=
    if re_search_AZ q
    then (to_katakana <$> variants) ++ (to_hiragana <$> variants)
    else (to_hiragana <$> variants) ++ (to_katakana <$> variants) in
  final_conditions args q
  = inr (if bool_decide (args_field args ∈ [field_auto; reading]) && is_romaji q
         then c ← generate args q;
              if decide (field c = reading)
              then filter (λ x, x ≠ c) (set_query c <$> kana)
                   ++ filter (λ x, x = c) (set_query c <$> kana) ++ [c]
              else [c]
         else generate args q).
Proof.
  intros variants kana. rewrite final_conditions_slots.
  destruct (bool_decide _ && is_romaji q); [|done].
  f_equal. apply Forall_bind_ext, Forall_forall.
  intros c Hc. destruct (generate_elem args q c Hc) as (Hq & _).
  case_decide as Hr; [|by apply slot_other].
  rewrite (slot_reading q c Hr). unfold kana_conditions, kana_renderings.
  rewrite Hq. fold variants. fold kana. f_equal.
  rewrite replicate_S_end. f_equal.
  apply replicate_as_Forall. split; [done|].
  apply Forall_forall. by intros x [-> _]%list_elem_of_filter.
Qed.

(** The splice adds, for every generated reading condition, two kana
    conditions per variant of the query, and nothing else. *)
Theorem final_length args q :
  ∃ fin, final_conditions args q = inr fin
    ∧ length fin
      = length (generate args q)
        + (if bool_decide (args_field args ∈ [field_auto; reading]) && is_romaji q
           then 2 * length (expand_romaji q)
                * length (filter (λ c, field c = reading) (generate args q))
           else 0).
Proof.
  rewrite final_conditions_slots. eexists. split; [done|].
  destruct (bool_decide _ && is_romaji q); [|lia].
  apply slots_length, Forall_forall. intros c Hc.
  by destruct (generate_elem args q c Hc).
Qed.

(** The query of a condition: a kanji or gloss condition always has the
    query as it was typed; a reading condition has it too, or one of its
    variants in hiragana or katakana. *)
Theorem final_queries args q :
  ∃ fin, final_conditions args q = inr fin
    ∧ Forall (λ c, (field c ≠ reading → query c = q)
                   ∧ (query c = q
                      ∨ ∃ r, r ∈ expand_romaji q
                             ∧ (query c = to_hiragana r
                                ∨ query c = to_katakana r)))
        fin.
Proof.
  rewrite final_conditions_slots. eexists. split; [done|].
  assert (Forall (λ c, query c = q) (generate args q)) as Hgen.
  { apply Forall_forall. intros c Hc. by destruct (generate_elem args q c Hc). }
  destruct (bool_decide _ && is_romaji q).
  - apply Forall_forall. intros x (c & Hx & Hc)%list_elem_of_bind.
    pose proof (proj1 (Forall_forall _ _) Hgen c Hc) as Hq. cbn beta in Hq.
    apply slot_elem in Hx as [->|(Hr & k & Hk & ->)]; [by split; [|left]|].
    split; [done|]. right. cbn [query set_query].
    rewrite Hq in Hk. unfold kana_renderings in Hk.
    destruct (re_search_AZ q);
      apply elem_of_app in Hk as [Hk|Hk];
      apply list_elem_of_fmap in Hk as (r & -> & Hr');
      exists r; (split; [done|]); first [by left|by right].
  - eapply Forall_impl; [exact Hgen|]. intros c Hc. by split; [|left].
Qed.

(** The order of the generated list survives the splice: in the final
    list too no regexp condition comes before a literal one, and under an
    [auto] extent the conditions of one regexp mode come with extent
    whole, then word, then partial. *)
Theorem final_order args q :
  ∃ fin, final_conditions args q = inr fin
    ∧ StronglySorted (λ c1 c2, regexp c1 = true → regexp c2 = true) fin
    ∧ (args_extent args = extent_auto →
         StronglySorted
           (λ c1 c2, regexp c1 = regexp c2 → pass_le (extent c1) (extent c2))
           fin).
Proof.
  rewrite final_conditions_slots. eexists. split; [done|].
  assert (StronglySorted (λ c1 c2, regexp c1 = true → regexp c2 = true)
            (generate args q)) as Hrx.
  { apply (StronglySorted_key (λ k1 k2, k1.2 = true → k2.2 = true)).
    generate_cases args q; by_evaluation. }
  assert (args_extent args = extent_auto →
          StronglySorted
            (λ c1 c2, regexp c1 = regexp c2 → pass_le (extent c1) (extent c2))
            (generate args q)
          ∧ Forall (λ c, pass_le (extent c) (extent c)) (generate args q))
    as Hpass.
  { intros He. split.
    - apply (StronglySorted_key (λ k1 k2, k1.2 = k2.2 → pass_le k1.1.2 k2.1.2)).
      generate_cases args q; try discriminate He; by_evaluation.
    - apply (Forall_fmap key (λ k, pass_le k.1.2 k.1.2)).
      generate_cases args q; try discriminate He; by_evaluation. }
  destruct (bool_decide _ && is_romaji q);
    [|split; [done|intros He; by destruct (Hpass He)]].
  split.
  - apply (slots_sorted (λ k1 k2, k1.2 = true → k2.2 = true)); [|done].
    by apply Forall_true.
  - intros He. destruct (Hpass He) as [Hsorted Hrefl].
    apply (slots_sorted (λ k1 k2, k1.2 = k2.2 → pass_le k1.1.2 k2.1.2));
      [|done].
    eapply Forall_impl; [exact Hrefl|]. by intros c Hc _.
Qed.

(** The flags that are no axis of the generation are those of the
    caller in every condition: the frequent-only flag as given, the
    case-sensitivity flag as derived, which is true whenever
    [--case-sensitive] was given. *)
Theorem flags_carried args q :
  (args_case_sensitive args = true → derive_case_sensitive args q = true)
  ∧ ∃ fin, final_conditions args q = inr fin
      ∧ Forall (λ c, case_sensitive c = derive_case_sensitive args q
                     ∧ frequent c = args_frequent args) fin.
Proof.
  split.
  - unfold derive_case_sensitive. by intros ->.
  - apply (final_conditions_Forall args q
             (λ c, case_sensitive c = derive_case_sensitive args q
                   ∧ frequent c = args_frequent args)); [done|].
    apply Forall_forall. intros c Hc.
    by destruct (generate_elem args q c Hc) as (_ & ? & ?).
Qed.

(** When stdout is no terminal, or no pager is configured, a run that
    reaches the cascade returns one line per entry of the first
    condition with entries, in the order of the matcher, each formatted
    with that condition; the matcher was called on the conditions up to
    that one. *)
Theorem run_returns_lines env args words cur log pre c post ids :
  config_present env = true →
  opendb env (derive_case_sensitive args (join_query words)) = Some cur →
  args_version args = false →
  args_list_abbrevs args = false →
  truthy (args_abbrev args) = false →
  join_query words ≠ "" →
  final_conditions args (join_query words) = inr (pre ++ c :: post) →
  Forall (no_entry cur) pre → cur c = inr ids → ids ≠ [] →
  stdout_isatty env && truthy (color_pager env) = false →
  run env args words log
  = (log ++ pre ++ [c], inr (Some (format_tsv env c <$> ids))).
Proof.
  intros Hconfig Hdb Hver Habbrevs Habbrev Hq Hfin Hpre Hc Hids Htty.
  unfold run. cbn zeta.
  rewrite Hconfig, Hdb, Hver, Habbrevs, Habbrev, bool_decide_eq_false_2 by done.
  cbn [negb]. rewrite Hfin. cbv [cbind lift].
  rewrite (guess_found _ _ _ _ ids) by done.
  unfold present. by rewrite Htty.
Qed.

End SpliceMore.

(** ** The claims on the sample instance *)

#[local] Existing Instance Sample.text_tools.
#[local] Existing Instance Sample.romkan.

Lemma guess_first_match_witness :
  guess Sample.kanji_only
    [Sample.neko gloss whole; Sample.neko kanji whole; Sample.neko reading whole] []
  = ([Sample.neko gloss whole; Sample.neko kanji whole],
     inr (Some (Sample.neko kanji whole), [1467640%Z]))
  ∧ guess Sample.empty_dictionary
      [Sample.neko gloss whole; Sample.neko kanji whole; Sample.neko reading whole] []
    = ([Sample.neko gloss whole; Sample.neko kanji whole; Sample.neko reading whole],
       inr (None, [])).
Proof.
  split.
  - apply (proj1 (guess_first_match Sample.kanji_only _ [])
             [Sample.neko gloss whole] (Sample.neko kanji whole)
             [Sample.neko reading whole] [1467640%Z]);
      [reflexivity|repeat constructor|reflexivity|discriminate].
  - apply (proj2 (guess_first_match Sample.empty_dictionary _ [])).
    repeat constructor.
Defined.

Lemma auto_field_order_witness :
  args_field Sample.auto_args = field_auto
  ∧ fields_of field_auto "nihongo" = [gloss; reading; kanji]
  ∧ field <$> take 3 (generate Sample.auto_args "nihongo") = [gloss; reading; kanji].
Proof.
  destruct (auto_field_order Sample.auto_args "nihongo" eq_refl)
    as (_ & _ & Hlatin & _ & _ & _ & Hgen).
  split; [reflexivity|]. split; [exact (Hlatin eq_refl)|].
  rewrite Hgen. exact (Hlatin eq_refl).
Defined.

Lemma generation_order_witness :
  StronglySorted (λ c1 c2, regexp c1 = true → regexp c2 = true)
    (generate Sample.auto_args "a.c")
  ∧ StronglySorted
      (λ c1 c2, regexp c1 = regexp c2 → pass_le (extent c1) (extent c2))
      (generate Sample.auto_args "a.c")
  ∧ StronglySorted (λ c1 c2, regexp c1 = regexp c2 → field c1 ≠ field c2)
      (generate Sample.kanji_word_args "a.c")
  ∧ key <$> generate Sample.auto_args "a.c"
    = [ (gloss, whole, false); (reading, whole, false); (kanji, whole, false);
        (gloss, word, false);
        (gloss, partial, false); (reading, partial, false);
        (kanji, partial, false);
        (gloss, whole, true); (reading, whole, true); (kanji, whole, true);
        (gloss, word, true);
        (gloss, partial, true); (reading, partial, true);
        (kanji, partial, true) ]
  ∧ key <$> generate Sample.kanji_word_args "a.c"
    = [ (kanji, whole, false); (kanji, whole, true) ].
Proof.
  destruct (generation_order Sample.auto_args "a.c")
    as (Hrx & Hpass & _ & Hauto & _).
  destruct (generation_order Sample.kanji_word_args "a.c")
    as (_ & _ & Hone & _ & Hexplicit).
  split; [exact Hrx|]. split; [exact (Hpass eq_refl)|].
  split; [apply Hone; discriminate|].
  split.
  - rewrite (Hauto eq_refl). reflexivity.
  - rewrite Hexplicit by discriminate. reflexivity.
Defined.

Lemma auto_skips_word_outside_gloss_witness :
  Forall (λ c, ¬ (extent c = word ∧ field c ∈ [kanji; reading]))
    (generate Sample.auto_args "nihongo")
  ∧ ∃ fin, final_conditions Sample.auto_args "nihongo" = inr fin
      ∧ Forall (λ c, ¬ (extent c = word ∧ field c ∈ [kanji; reading])) fin.
Proof.
  exact (auto_skips_word_outside_gloss Sample.auto_args "nihongo" eq_refl eq_refl).
Defined.

(** With [-k --word] and a query holding a regexp-special character
    there are two conditions, not one. *)
Lemma word_kanji_two_conditions :
  final_conditions Sample.kanji_word_args "日.語"
  = inr [ {| field := kanji; query := "日.語"; extent := whole; regexp := false;
             case_sensitive := false; frequent := false |};
          {| field := kanji; query := "日.語"; extent := whole; regexp := true;
             case_sensitive := false; frequent := false |} ]
  ∧ length (generate Sample.kanji_word_args "日.語") = 2
  ∧ ¬ (∃ c, final_conditions Sample.kanji_word_args "日.語" = inr [c]).
Proof.
  split; [reflexivity|]. split; [reflexivity|].
  intros [c Hc]. vm_compute in Hc. discriminate Hc.
Qed.

Lemma word_kanji_conditions_witness :
  generate Sample.kanji_word_args "日本語"
  = [ {| field := kanji; query := "日本語"; extent := whole; regexp := false;
         case_sensitive := false; frequent := false |} ]
  ∧ final_conditions Sample.kanji_word_args "日本語"
    = inr (generate Sample.kanji_word_args "日本語").
Proof.
  exact (word_kanji_conditions Sample.kanji_word_args "日本語" eq_refl eq_refl).
Defined.

Lemma kana_conditions_before_reading_witness :
  ∃ fin, final_conditions Sample.auto_args "kōbe" = inr fin
    ∧ (λ c, (field c, query c, extent c)) <$> fin
      = [ (reading, "こうべ", whole); (reading, "こおべ", whole);
          (reading, "コウベ", whole); (reading, "コオベ", whole);
          (reading, "kōbe", whole); (gloss, "kōbe", whole); (kanji, "kōbe", whole);
          (gloss, "kōbe", word);
          (reading, "こうべ", partial); (reading, "こおべ", partial);
          (reading, "コウベ", partial); (reading, "コオベ", partial);
          (reading, "kōbe", partial); (gloss, "kōbe", partial);
          (kanji, "kōbe", partial) ].
Proof.
  destruct (kana_conditions_before_reading Sample.auto_args "kōbe") as [Hfin _].
  - reflexivity.
  - by_evaluation.
  - left. apply Forall_forall. by_evaluation.
  - eexists. split; [exact Hfin|]. vm_compute. reflexivity.
Defined.


Lemma no_match_returns_None_witness :
  ∃ conditions,
    final_conditions Sample.auto_args "cat" = inr conditions
    ∧ run (Sample.env Sample.empty_dictionary) Sample.auto_args ["cat"] []
      = (conditions, inr None).
Proof.
  destruct (no_match_returns_None (Sample.env Sample.empty_dictionary)
              Sample.auto_args ["cat"] Sample.empty_dictionary [])
    as (conditions & Hfin & Hnone & _);
    [reflexivity|reflexivity|reflexivity|reflexivity|reflexivity|discriminate|].
  exists conditions. split; [exact Hfin|].
  apply Hnone, Forall_forall. reflexivity.
Defined.

Lemma cat_conditions_witness :
  (λ c, (field c, extent c)) <$> generate Sample.auto_args "cat"
  = [ (gloss, whole); (reading, whole); (kanji, whole);
      (gloss, word);
      (gloss, partial); (reading, partial); (kanji, partial) ].
Proof.
  destruct (cat_conditions Sample.auto_args) as [Hgen _]; [reflexivity..|].
  rewrite Hgen. reflexivity.
Defined.

(** For ["cat"] the reading and kanji conditions of extent whole are
    tried before gloss with extent word. *)
Lemma cat_reading_before_gloss_word :
  ∃ fin, final_conditions Sample.auto_args "cat" = inr fin
    ∧ (λ c, (field c, extent c)) <$> fin
      = [ (gloss, whole);
          (reading, whole); (reading, whole); (reading, whole); (kanji, whole);
          (gloss, word); (gloss, partial);
          (reading, partial); (reading, partial); (reading, partial);
          (kanji, partial) ]
    ∧ ¬ (∀ i j ci cj, fin !! i = Some ci → fin !! j = Some cj →
           field ci = gloss → field cj ≠ gloss → i < j).
Proof.
  eexists. split; [reflexivity|]. split; [reflexivity|].
  intros Hclaim.
  specialize (Hclaim 5 1 _ _ eq_refl eq_refl eq_refl).
  cbn in Hclaim. specialize (Hclaim ltac:(discriminate)). lia.
Qed.


(** The query ["Ōsaka"] looks like rōmaji and has an uppercase letter,
    and yet its kana conditions come in hiragana first, not in katakana
    first: before the reading condition of extent whole stand the
    hiragana renderings of its variants, then the katakana ones. *)
Lemma osaka_hiragana_first :
  is_romaji "Ōsaka" = true
  ∧ ∃ fin, final_conditions Sample.auto_args "Ōsaka" = inr fin
      ∧ query <$> filter (λ c, field c = reading ∧ extent c = whole) fin
        = (to_hiragana <$> expand_romaji "Ōsaka")
          ++ (to_katakana <$> expand_romaji "Ōsaka") ++ ["Ōsaka"]
      ∧ query <$> filter (λ c, field c = reading ∧ extent c = whole) fin
        ≠ (to_katakana <$> expand_romaji "Ōsaka")
          ++ (to_hiragana <$> expand_romaji "Ōsaka") ++ ["Ōsaka"].
Proof.
  split; [reflexivity|].
  eexists. split; [reflexivity|]. split; [reflexivity|].
  vm_compute. discriminate.
Qed.

(** ** The further properties on the sample instance *)

Lemma empty_query_rejected_witness :
  run (Sample.env Sample.empty_dictionary) Sample.auto_args [""] []
  = ([], inl (SystemExit 2))
  ∧ ∃ conditions,
      final_conditions Sample.auto_args " " = inr conditions
      ∧ run (Sample.env Sample.empty_dictionary) Sample.auto_args [""; ""] []
        = (let! (chosen_search, ent_seqs) := guess Sample.empty_dictionary conditions in
           present (Sample.env Sample.empty_dictionary) chosen_search ent_seqs) [].
Proof.
  split.
  - destruct (empty_query_rejected (Sample.env Sample.empty_dictionary)
                Sample.auto_args [""] Sample.empty_dictionary [])
      as [Hexit _]; [reflexivity..|].
    apply Hexit. right. reflexivity.
  - destruct (empty_query_rejected (Sample.env Sample.empty_dictionary)
                Sample.auto_args [""; ""] Sample.empty_dictionary [])
      as [_ Hruns]; [reflexivity..|].
    apply Hruns. intros [Hw|Hw]; discriminate Hw.
Defined.

Lemma run_exits_before_cascade_witness :
  run (Sample.env Sample.empty_dictionary)
    (mkNamespace true field_auto false false extent_auto false false None) [] []
  = ([], inl (SystemExit 0)).
Proof.
  apply (run_exits_before_cascade (Sample.env Sample.empty_dictionary)
           (mkNamespace true field_auto false false extent_auto false false None)
           [] []).
  - reflexivity.
  - eexists. reflexivity.
  - left. reflexivity.
Defined.

Lemma explicit_field_kept_witness :
  Forall (λ c, field c = kanji) (generate Sample.kanji_word_args "日本語")
  ∧ ∃ fin, final_conditions Sample.kanji_word_args "日本語" = inr fin
      ∧ Forall (λ c, field c = kanji) fin.
Proof.
  apply (explicit_field_kept Sample.kanji_word_args "日本語"). discriminate.
Defined.

Lemma explicit_extent_kept_witness :
  Forall (λ c, (word = word ∧ field c ≠ gloss → extent c = whole)
               ∧ (¬ (word = word ∧ field c ≠ gloss) → extent c = word))
    (generate (mkNamespace false field_auto false false word false false None)
       "cat")
  ∧ (λ c, (field c, extent c))
      <$> generate (mkNamespace false field_auto false false word false false None)
            "cat"
    = [ (gloss, word); (reading, whole); (kanji, whole) ].
Proof.
  split; [|reflexivity].
  apply (explicit_extent_kept
           (mkNamespace false field_auto false false word false false None) "cat").
  discriminate.
Defined.

Lemma regexp_modes_witness :
  generate Sample.auto_args "a.c"
  = filter (λ c, regexp c = false) (generate Sample.auto_args "a.c")
    ++ ((λ c, with_keys c (field c) (extent c) true)
          <$> filter (λ c, regexp c = false) (generate Sample.auto_args "a.c"))
  ∧ Forall (λ c, regexp c = false) (generate Sample.auto_args "abc").
Proof.
  split.
  - apply (regexp_modes Sample.auto_args "a.c"); reflexivity.
  - apply (regexp_modes Sample.auto_args "abc"); reflexivity.
Defined.

Lemma final_order_witness :
  ∃ fin, final_conditions Sample.auto_args "kōbe" = inr fin
    ∧ StronglySorted (λ c1 c2, regexp c1 = true → regexp c2 = true) fin
    ∧ StronglySorted
        (λ c1 c2, regexp c1 = regexp c2 → pass_le (extent c1) (extent c2)) fin.
Proof.
  destruct (final_order Sample.auto_args "kōbe") as (fin & Hfin & Hrx & Hpass).
  exists fin. split; [exact Hfin|]. split; [exact Hrx|].
  apply Hpass. reflexivity.
Defined.

Lemma flags_carried_witness :
  derive_case_sensitive
    (mkNamespace false field_auto true false extent_auto false false None) "kobe"
  = true.
Proof.
  apply (flags_carried
           (mkNamespace false field_auto true false extent_auto false false None)
           "kobe").
  reflexivity.
Defined.

Lemma run_returns_lines_witness :
  run (Sample.env Sample.kanji_only) Sample.kanji_word_args ["日本語"] []
  = ([ {| field := kanji; query := "日本語"; extent := whole; regexp := false;
          case_sensitive := false; frequent := false |} ],
     inr (Some [EmptyString])).
Proof.
  apply (run_returns_lines (Sample.env Sample.kanji_only) Sample.kanji_word_args
           ["日本語"] Sample.kanji_only [] []
           {| field := kanji; query := "日本語"; extent := whole; regexp := false;
              case_sensitive := false; frequent := false |}
           [] [1467640%Z]);
    first [reflexivity|discriminate|constructor].
Defined.
